(** * ConceptRouter: the per-concept action registry of [src/conceptRouter.ts]

    The class [ConceptRouter] keeps three tables keyed by action name
    ([actions], [options], [syncs]), registers action bodies under names,
    and composes the handler chain [validate..., action] for a name.  Four
    generators register canned bodies that talk to the bound document store.

    The embedding is shallow: a method of the class is a computation in a
    state-and-exception monad over the fields of the instance, a JavaScript
    [throw] is the [inl] result, and the three tables are finite maps from
    strings, read through the JavaScript [in] operator and property access,
    both of which also see the members of [Object.prototype]. *)

From Stdlib Require Import ZArith Lia.
From stdpp Require Import gmap strings list fin_maps pretty sorting.

Local Open Scope string_scope.
Local Open Scope list_scope.

(** ** Exceptions and the state-and-exception monad *)

(** The class throws plain [Error] objects; a call of a non-function value
    is a [TypeError] raised by the language itself. *)
Inductive Exn : Type :=
  | Error (message : string)
  | TypeError (message : string)
  | Foreign (class message : string).  (* an exception class of a collaborator *)

(** [Comp S A]: a method body run on a mutable state [S].  It ends with a
    returned value or a thrown exception, and with the state as the run
    left it (an exception does not undo earlier writes). *)
Definition Comp (S A : Type) : Type := S → (Exn + A) * S.

Definition ret {S A} (a : A) : Comp S A := λ s, (inr a, s).

Definition bind {S A B} (m : Comp S A) (k : A → Comp S B) : Comp S B :=
  λ s, match m s with
       | (inr a, s') => k a s'
       | (inl e, s') => (inl e, s')
       end.

Definition throw {S A} (e : Exn) : Comp S A := λ s, (inl e, s).
Definition get {S} : Comp S S := λ s, (inr s, s).
Definition modify {S} (f : S → S) : Comp S unit := λ s, (inr tt, f s).

Declare Scope comp_scope.
Delimit Scope comp_scope with comp.
Notation "'let*' x ':=' m 'in' k" := (bind m (λ x, k))
  (at level 10, x name, m at level 100, k at level 200) : comp_scope.
Notation "m ';;;' k" := (bind m (λ _, k))
  (at level 100, k at level 200, right associativity) : comp_scope.

(** Result and final state of a run. *)
Definition result {S A} (m : Comp S A) (s : S) : Exn + A := (m s).1.
Definition state_after {S A} (m : Comp S A) (s : S) : S := (m s).2.

(** ** Plain JavaScript objects used as tables *)

(** The tables are created by the literal [{}], so their prototype is
    [Object.prototype].  These are its own property names; a table sees
    every one of them through [in] and through property access. *)
Definition Object_prototype : list string :=
  [ "constructor"; "__defineGetter__"; "__defineSetter__"; "hasOwnProperty";
    "__lookupGetter__"; "__lookupSetter__"; "isPrototypeOf";
    "propertyIsEnumerable"; "toString"; "valueOf"; "__proto__";
    "toLocaleString" ].

Definition inherited (key : string) : bool :=
  bool_decide (key ∈ Object_prototype).

(** What a property read [table[key]] produces: the table's own value, the
    member inherited from [Object.prototype], or [undefined]. *)
Inductive Property (V : Type) : Type :=
  | Own (v : V)
  | Inherited (key : string)
  | Undefined.
Arguments Own {V} v.
Arguments Inherited {V} key.
Arguments Undefined {V}.

Section Tables.
Context {V : Type}.

(** [key in table] *)
Definition js_in (key : string) (table : gmap string V) : bool :=
  match table !! key with
  | Some _ => true
  | None => inherited key
  end.

(** [table[key]] *)
Definition js_get (key : string) (table : gmap string V) : Property V :=
  match table !! key with
  | Some v => Own v
  | None => if inherited key then Inherited key else Undefined
  end.

(** [table[key] = v], for a key that [Object.prototype] does not define
    (every write of the class is behind a failed [in] test, see
    [defineAction] and [sync]). *)
Definition js_set (key : string) (v : V) (table : gmap string V)
  : gmap string V := <[key := v]> table.
End Tables.

(** ** Documents, requests and responses *)

(** [ObjectId] of the store driver, by its 24-digit hexadecimal form. *)
Record ObjectId : Type := { hex : string }.

Inductive Json : Type :=
  | JNull
  | JBool (b : bool)
  | JNumber (z : Z)
  | JString (s : string)
  | JDate (ms : Z)
  | JObjectId (id : ObjectId).

(** A document and a filter are objects with scalar fields. *)
Abbreviation Document := (gmap string Json).
Abbreviation Filter := (gmap string Json).

(** The second argument of [readMany]: [{ sort: { field: direction } }]. *)
Record FindOptions : Type := { sort : list (string * Z) }.

(** The fields of the request that the action bodies read, with the types
    the source casts them to. *)
Record Request : Type := {
  body_document : Document;          (* req.body.document *)
  body_partialDocument : Document;   (* req.body.partialDocument *)
  params__id : string;               (* req.params._id *)
  query_filter : Filter              (* req.query.filter *)
}.

(** The argument of [res.json]. *)
Inductive ResponseBody : Type :=
  | DocumentJson (document : option Document)     (* { document } *)
  | DocumentsJson (documents : list Document).    (* { documents } *)

(** ** The document-store collaborator *)

Record InsertOneResult : Type := { insertedId : ObjectId }.

(** The methods of [ConceptDb] that the class calls, over a store state
    [St].  An awaited promise that rejects is a thrown exception. *)
Record ConceptDb (St : Type) : Type := {
  db_name : string;
  createOne : Document → Comp St InsertOneResult;
  readMany : Filter → FindOptions → Comp St (list Document);
  updateOneById : ObjectId → Document → Comp St unit;
  readOneById : ObjectId → Comp St (option Document);
  popOneById : ObjectId → Comp St (option Document)
}.
Arguments db_name {St} _.
Arguments createOne {St} _ _ _.
Arguments readMany {St} _ _ _ _.
Arguments updateOneById {St} _ _ _ _.
Arguments readOneById {St} _ _ _.
Arguments popOneById {St} _ _ _.

(** What a handler acts on: the store behind [this.db] and the bodies
    written to its response [res]. *)
Record World (St : Type) : Type := { store : St; sent : list ResponseBody }.
Arguments Build_World {St} _ _.
Arguments store {St} _.
Arguments sent {St} _.

(** [await this.db.method(...)] *)
Definition await {St A} (m : Comp St A) : Comp (World St) A :=
  λ w, match m (store w) with
       | (r, st) => (r, {| store := st; sent := sent w |})
       end.

(** [res.json(body)] *)
Definition res_json {St} (b : ResponseBody) : Comp (World St) unit :=
  modify (λ w, {| store := store w; sent := sent w ++ [b] |}).

(** [RequestHandler] of Express, as run for one request. *)
Definition RequestHandler (St : Type) : Type := Request → Comp (World St) unit.
Abbreviation Validator := RequestHandler.
Abbreviation Action := RequestHandler.

(** [ActionOptions]: the optional [validate] list.  The class stores the
    object it is given and never writes to it, so it is a value here. *)
Record ActionOptions (St : Type) : Type := {
  validate : option (list (Validator St))
}.
Arguments validate {St} _.
Arguments Build_ActionOptions {St} _.

(** ** The class *)

Record ConceptRouter (St : Type) : Type := {
  name : string;
  db : ConceptDb St;
  actions : gmap string (Action St);
  options : gmap string (ActionOptions St);
  syncs : gmap string (list (Action St))
}.
Arguments Build_ConceptRouter {St} _ _ _ _ _.
Arguments name {St} _.
Arguments db {St} _.
Arguments actions {St} _.
Arguments options {St} _.
Arguments syncs {St} _.

Section Router.
Context {St : Type}.
Implicit Types (nm : string) (this : ConceptRouter St).

Definition set_actions (f : gmap string (Action St) → gmap string (Action St)) this :=
  {| name := name this; db := db this; actions := f (actions this);
     options := options this; syncs := syncs this |}.
Definition set_options
    (f : gmap string (ActionOptions St) → gmap string (ActionOptions St)) this :=
  {| name := name this; db := db this; actions := actions this;
     options := f (options this); syncs := syncs this |}.
Definition set_syncs
    (f : gmap string (list (Action St)) → gmap string (list (Action St))) this :=
  {| name := name this; db := db this; actions := actions this;
     options := options this; syncs := f (syncs this) |}.

(** [constructor(db)] *)
Definition new (d : ConceptDb St) : ConceptRouter St :=
  {| name := db_name d; db := d; actions := ∅; options := ∅; syncs := ∅ |}.

(** The three [Error]s of the class, by their messages. *)
Definition does_not_exist nm this : Exn :=
  Error ("Action " +:+ nm +:+ " does not exist in " +:+ name this +:+ " concept!").
Definition already_defined nm this : Exn :=
  Error ("Action " +:+ nm +:+ " already defined in " +:+ name this +:+ " concept!").
Definition is_not_defined nm : Exn :=
  Error ("Action " +:+ nm +:+ " is not defined!").
(** Calling [push] on a value that has none. *)
Definition push_is_not_a_function : Exn :=
  TypeError "this.syncs[name].push is not a function".
Definition cannot_read_validate : Exn :=
  TypeError "Cannot read properties of undefined (reading 'validate')".

Local Open Scope comp_scope.

Definition action nm : Comp (ConceptRouter St) (Property (Action St)) :=
  let* this := get in
  if negb (js_in nm (actions this)) then throw (does_not_exist nm this)
  else ret (js_get nm (actions this)).

Definition defineAction nm (a : RequestHandler St)
    (o : option (ActionOptions St)) : Comp (ConceptRouter St) unit :=
  let* this := get in
  if js_in nm (actions this) then throw (already_defined nm this)
  else
    modify (set_actions (js_set nm a)) ;;;
    match o with
    | Some opts => modify (set_options (js_set nm opts))
    | None => ret tt
    end.

Definition sync nm (a : Action St) : Comp (ConceptRouter St) unit :=
  let* this := get in
  (if negb (js_in nm (syncs this)) then modify (set_syncs (js_set nm []))
   else ret tt) ;;;
  let* this := get in
  match js_get nm (syncs this) with
  | Own l => modify (set_syncs (js_set nm (l ++ [a])))
  | Inherited _ | Undefined => throw push_is_not_a_function
  end.

Definition handlers nm
  : Comp (ConceptRouter St) (list (Property (RequestHandler St))) :=
  let* this := get in
  if negb (js_in nm (actions this)) then throw (is_not_defined nm)
  else
    let* validators :=
      if js_in nm (options this) then
        match js_get nm (options this) with
        | Own opts => ret (Own <$> default [] (validate opts))
        | Inherited _ => ret []
        | Undefined => throw cannot_read_validate
        end
      else ret [] in
    ret (validators ++ [js_get nm (actions this)]).
End Router.

(** ** The four generators and the bodies they register *)

(** Each body is an [async] arrow function closed over [this.db], a
    read-only field: the body is a function of the bound store. *)

Section Generators.
Context {St : Type}.
(** [new ObjectId(s)] of the store driver: the identifier written by a
    string, or the driver's exception for a string that writes none. *)
Variable ObjectId_new : string → Exn + ObjectId.

Local Open Scope comp_scope.

Definition new_ObjectId (s : string) : Comp (World St) ObjectId :=
  match ObjectId_new s with
  | inr id => ret id
  | inl e => throw e
  end.

Definition create_body (d : ConceptDb St) : RequestHandler St := λ req,
  let document := body_document req in
  let* inserted := await (createOne d document) in
  let _id := insertedId inserted in
  res_json (DocumentJson (Some (<["_id" := JObjectId _id]> document))).

Definition read_body (d : ConceptDb St) : RequestHandler St := λ req,
  let filter := query_filter req in
  let* documents :=
    await (readMany d filter {| sort := [("dateUpdated", (-1)%Z)] |}) in
  res_json (DocumentsJson documents).

Definition update_body (d : ConceptDb St) : RequestHandler St := λ req,
  let update := body_partialDocument req in
  let* _id := new_ObjectId (params__id req) in
  await (updateOneById d _id update) ;;;
  let* document := await (readOneById d _id) in
  res_json (DocumentJson document).

Definition delete_body (d : ConceptDb St) : RequestHandler St := λ req,
  let* _id := new_ObjectId (params__id req) in
  let* document := await (popOneById d _id) in
  res_json (DocumentJson document).

Definition defineCreateAction (o : option (ActionOptions St))
  : Comp (ConceptRouter St) unit :=
  let* this := get in defineAction "create" (create_body (db this)) o.

Definition defineReadAction (o : option (ActionOptions St))
  : Comp (ConceptRouter St) unit :=
  let* this := get in defineAction "read" (read_body (db this)) o.

Definition defineUpdateAction (o : option (ActionOptions St))
  : Comp (ConceptRouter St) unit :=
  let* this := get in defineAction "update" (update_body (db this)) o.

Definition defineDeleteAction (o : option (ActionOptions St))
  : Comp (ConceptRouter St) unit :=
  let* this := get in defineAction "delete" (delete_body (db this)) o.
End Generators.

(** ** Sequences of calls on one instance *)

(** A call of one of the four registry methods.  A generator call is the
    [DefineAction] call it makes. *)
Inductive Call (St : Type) : Type :=
  | DefineAction (nm : string) (a : RequestHandler St)
      (o : option (ActionOptions St))
  | Sync (nm : string) (a : Action St)
  | GetAction (nm : string)
  | Handlers (nm : string).
Arguments DefineAction {St} nm a o.
Arguments Sync {St} nm a.
Arguments GetAction {St} nm.
Arguments Handlers {St} nm.

Section Calls.
Context {St : Type}.

(** The instance after a call, whether the call returned or threw. *)
Definition call (c : Call St) (this : ConceptRouter St) : ConceptRouter St :=
  match c with
  | DefineAction nm a o => state_after (defineAction nm a o) this
  | Sync nm a => state_after (sync nm a) this
  | GetAction nm => state_after (action nm) this
  | Handlers nm => state_after (handlers nm) this
  end.

Definition calls (cs : list (Call St)) (this : ConceptRouter St)
  : ConceptRouter St := foldl (λ r c, call c r) this cs.

(** The instances a program can hold: a constructed one, after any calls. *)
Definition reachable (this : ConceptRouter St) : Prop :=
  ∃ d cs, this = calls cs (new d).
End Calls.

(** ** Stable sorting by a comparison *)

Section Sorting.
Context {A : Type} (le : A → A → bool).

Fixpoint insert_sorted (x : A) (l : list A) : list A :=
  match l with
  | [] => [x]
  | y :: l' => if le x y then x :: y :: l' else y :: insert_sorted x l'
  end.

Definition sort_by (l : list A) : list A := foldr insert_sorted [] l.
End Sorting.

(** ** A document store, modelled from the specification *)

#[global] Instance ObjectId_eq_dec : EqDecision ObjectId.
Proof. solve_decision. Defined.
#[global] Instance Json_eq_dec : EqDecision Json.
Proof. solve_decision. Defined.

Module MemDb.

(** Modelled from the spec: the state of the document store behind
    [ConceptDb] (the module [./conceptDb] is imported by the class and is
    not among the sources): the stored documents, each carrying its
    store-issued [_id], and the count of identifiers issued so far. *)
Record Store : Type := { documents : list Document; issued : N }.

(** Modelled from the spec: identifiers are opaque values issued by the
    store; this one numbers them. *)
Definition fresh (n : N) : ObjectId :=
  let digits := pretty n in
  {| hex := String.concat "" (replicate (24 - String.length digits) "0")
            +:+ digits |}.

(** Order of two scalar values of different kinds. *)
Definition json_rank (j : Json) : Z :=
  match j with
  | JNull => 0 | JNumber _ => 1 | JString _ => 2
  | JObjectId _ => 3 | JBool _ => 4 | JDate _ => 5
  end.

Definition json_compare (a b : Json) : comparison :=
  match a, b with
  | JNumber x, JNumber y => Z.compare x y
  | JString x, JString y => String.compare x y
  | JObjectId x, JObjectId y => String.compare (hex x) (hex y)
  | JBool x, JBool y => Bool.compare x y
  | JDate x, JDate y => Z.compare x y
  | _, _ => Z.compare (json_rank a) (json_rank b)
  end.

(** A missing field sorts as [null]. *)
Definition field (f : string) (d : Document) : Json := default JNull (d !! f).

(** Modelled from the spec: the sort specification of [readMany] orders
    by its fields in turn, ascending for a positive direction and
    descending for a negative one. *)
Fixpoint doc_compare (spec : list (string * Z)) (a b : Document) : comparison :=
  match spec with
  | [] => Eq
  | (f, direction) :: spec' =>
      match json_compare (field f a) (field f b) with
      | Eq => doc_compare spec' a b
      | c => if (direction <? 0)%Z then CompOpp c else c
      end
  end.

Definition doc_leb (spec : list (string * Z)) (a b : Document) : bool :=
  match doc_compare spec a b with Gt => false | _ => true end.

(** A filter matches the documents that carry each of its fields with
    the same value; the empty filter matches every document. *)
Definition matches (f : Filter) (d : Document) : bool :=
  forallb (λ kv, bool_decide (d !! kv.1 = Some kv.2)) (map_to_list f).

Definition has_id (id : ObjectId) (d : Document) : bool :=
  bool_decide (d !! "_id" = Some (JObjectId id)).

Fixpoint remove_first (p : Document → bool) (l : list Document) : list Document :=
  match l with
  | [] => []
  | d :: l' => if p d then l' else d :: remove_first p l'
  end.

(** Modelled from the spec: [createOne(document) → identifier]. *)
Definition createOne (doc : Document) : Comp Store InsertOneResult := λ st,
  let id := fresh (issued st) in
  (inr {| insertedId := id |},
   {| documents := documents st ++ [<["_id" := JObjectId id]> doc];
      issued := N.succ (issued st) |}).

(** Modelled from the spec: [readMany(filter, sortSpec) → sequence of
    documents], all the matching documents in the order of [sortSpec]. *)
Definition readMany (f : Filter) (o : FindOptions) : Comp Store (list Document) :=
  λ st, (inr (sort_by (doc_leb (sort o)) (List.filter (matches f) (documents st))), st).

(** Modelled from the spec: [updateOneById(id, partialDocument)] applies
    the patch's fields to the identified document. *)
Definition updateOneById (id : ObjectId) (patch : Document) : Comp Store unit :=
  modify (λ st,
    {| documents := (λ d, if has_id id d then patch ∪ d else d) <$> documents st;
       issued := issued st |}).

(** Modelled from the spec: [readOneById(id) → document or absent]. *)
Definition readOneById (id : ObjectId) : Comp Store (option Document) :=
  λ st, (inr (List.find (has_id id) (documents st)), st).

(** Modelled from the spec: [popOneById(id) → removed document or absent]. *)
Definition popOneById (id : ObjectId) : Comp Store (option Document) :=
  λ st, (inr (List.find (has_id id) (documents st)),
         {| documents := remove_first (has_id id) (documents st);
            issued := issued st |}).

(** Modelled from the spec: the store collaborator bound to a resource. *)
Definition conceptDb (resource : string) : ConceptDb Store :=
  Build_ConceptDb Store resource
    createOne readMany updateOneById readOneById popOneById.

(** [new ObjectId(s)] on the strings of 24 hexadecimal digits, the form
    in which the driver prints an identifier. *)
Definition is_hex_digit (c : Ascii.ascii) : bool :=
  let n := Ascii.nat_of_ascii c in
  (((48 <=? n) && (n <=? 57)) || ((97 <=? n) && (n <=? 102))
   || ((65 <=? n) && (n <=? 70)))%nat.

Definition ObjectId_new (s : string) : Exn + ObjectId :=
  if (String.length s =? 24)%nat && forallb is_hex_digit (String.list_ascii_of_string s)
  then inr {| hex := s |}
  else inl (Foreign "BSONError" "input must be a 24 character hex string").
End MemDb.

(** ** Vocabulary of the statements *)

(** The validators a registration supplies: [options.validate || []], and
    none when no options are passed. *)
Definition supplied_validators {St} (o : option (ActionOptions St))
  : list (Validator St) :=
  match o with
  | Some opts => default [] (validate opts)
  | None => []
  end.

(** The options argument is present and has a [validate] list. *)
Definition carries_validators {St} (o : option (ActionOptions St)) : Prop :=
  ∃ opts vs, o = Some opts ∧ validate opts = Some vs.

(** Every own key of [options] is an own key of [actions]. *)
Definition options_within_actions {St} (this : ConceptRouter St) : Prop :=
  ∀ nm, is_Some (options this !! nm) → is_Some (actions this !! nm).

(** The time in the [dateUpdated] field of a document. *)
Definition dateUpdated (d : Document) : option Z :=
  match d !! "dateUpdated" with
  | Some (JDate t) => Some t
  | _ => None
  end.

(** Two documents in the order of their times, later first. *)
Definition not_older : relation Document := λ a b,
  ∃ ta tb, dateUpdated a = Some ta ∧ dateUpdated b = Some tb ∧ (tb ≤ ta)%Z.

(** Each document is at least as recently updated as all that follow. *)
Definition newest_first (l : list Document) : Prop :=
  ∀ i j di dj ti tj, (i < j)%nat → l !! i = Some di → l !! j = Some dj →
    dateUpdated di = Some ti → dateUpdated dj = Some tj → (tj ≤ ti)%Z.

(** No table holds, as its own key, a name that [Object.prototype] defines. *)
Definition no_inherited_own_key {St} (this : ConceptRouter St) : Prop :=
  ∀ nm, inherited nm = true →
    actions this !! nm = None ∧ options this !! nm = None
    ∧ syncs this !! nm = None.

(** The four generators, told apart: the name each one registers, the body
    it builds and the method itself. *)
Inductive Crud : Type := Create | Read | Update | Delete.

Definition crud_name (g : Crud) : string :=
  match g with
  | Create => "create" | Read => "read"
  | Update => "update" | Delete => "delete"
  end.

Definition crud_body {St} (ObjectId_new : string → Exn + ObjectId)
    (g : Crud) (d : ConceptDb St) : RequestHandler St :=
  match g with
  | Create => create_body d
  | Read => read_body d
  | Update => update_body ObjectId_new d
  | Delete => delete_body ObjectId_new d
  end.

Definition crud_define {St} (ObjectId_new : string → Exn + ObjectId)
    (g : Crud) (o : option (ActionOptions St)) : Comp (ConceptRouter St) unit :=
  match g with
  | Create => defineCreateAction o
  | Read => defineReadAction o
  | Update => defineUpdateAction ObjectId_new o
  | Delete => defineDeleteAction ObjectId_new o
  end.

(** ** Sample data *)

Module Sample.
Definition posts : ConceptDb MemDb.Store := MemDb.conceptDb "post".

(** A handler that answers with a document numbered [k]. *)
Definition answers (k : Z) : RequestHandler MemDb.Store :=
  λ _, res_json (DocumentJson (Some {[ "step" := JNumber k ]})).

Definition v1 := answers 1.
Definition v2 := answers 2.
Definition b1 := answers 10.
Definition b2 := answers 20.
Definition f1 := answers 31.
Definition f2 := answers 32.

Definition id1 : ObjectId := {| hex := "0000000000000000000000a1" |}.
Definition id2 : ObjectId := {| hex := "0000000000000000000000a2" |}.
Definition id3 : ObjectId := {| hex := "0000000000000000000000a3" |}.

Definition post (id : ObjectId) (title : string) (updated : Z) : Document :=
  {[ "_id" := JObjectId id; "title" := JString title;
     "dateUpdated" := JDate updated ]}.

(** Three documents updated at times 100 < 200 < 300. *)
Definition d1 := post id1 "first" 100.
Definition d2 := post id2 "second" 200.
Definition d3 := post id3 "third" 300.

Definition stored : MemDb.Store :=
  {| MemDb.documents := [d2; d1; d3]; MemDb.issued := 3 |}.

Definition request (id : string) (patch filter : Document) : Request :=
  {| body_document := ∅; body_partialDocument := patch;
     params__id := id; query_filter := filter |}.
End Sample.

(** * Properties of the registry *)

Section RouterFacts.
Context {St : Type}.
Implicit Types (nm : string) (this : ConceptRouter St) (a b : Action St)
  (o : option (ActionOptions St)).

(** ** The methods, run on an instance *)

Lemma js_in_own {V} key (table : gmap string V) v :
  table !! key = Some v → js_in key table = true.
Proof. unfold js_in. by intros ->. Qed.

Lemma js_in_false {V} key (table : gmap string V) :
  js_in key table = false ↔ table !! key = None ∧ inherited key = false.
Proof.
  unfold js_in. destruct (table !! key) as [v|]; split.
  - discriminate.
  - by intros [? _].
  - by intros ->.
  - by intros [_ ->].
Qed.

Lemma action_run nm this :
  action nm this =
    if js_in nm (actions this) then (inr (js_get nm (actions this)), this)
    else (inl (does_not_exist nm this), this).
Proof.
  unfold action, bind, get, throw, ret.
  by destruct (js_in nm (actions this)).
Qed.

Lemma defineAction_run nm a o this :
  defineAction nm a o this =
    if js_in nm (actions this) then (inl (already_defined nm this), this)
    else (inr tt,
          match o with
          | Some opts =>
              set_options (js_set nm opts) (set_actions (js_set nm a) this)
          | None => set_actions (js_set nm a) this
          end).
Proof.
  unfold defineAction, bind, get, throw, modify, ret.
  destruct (js_in nm (actions this)); [done|]. by destruct o.
Qed.

Lemma sync_run nm a this :
  sync nm a this =
    match syncs this !! nm with
    | Some l => (inr tt, set_syncs (js_set nm (l ++ [a])) this)
    | None =>
        if inherited nm then (inl push_is_not_a_function, this)
        else (inr tt, set_syncs (js_set nm [a]) (set_syncs (js_set nm []) this))
    end.
Proof.
  unfold sync, bind, get, throw, modify, ret, js_in, js_get.
  destruct (syncs this !! nm) as [l|] eqn:Hl; simpl.
  - by rewrite Hl.
  - destruct (inherited nm); simpl.
    + by rewrite Hl.
    + unfold js_set. by rewrite lookup_insert_eq.
Qed.

Lemma handlers_run nm this :
  handlers nm this =
    if js_in nm (actions this) then
      (inr ((Own <$> supplied_validators (options this !! nm))
              ++ [js_get nm (actions this)]), this)
    else (inl (is_not_defined nm), this).
Proof.
  unfold handlers, bind, get, throw, ret, js_in, js_get.
  destruct (actions this !! nm) as [b|], (options this !! nm) as [opts|],
    (inherited nm); reflexivity.
Qed.

(** ** What a call leaves in place *)

Lemma call_name c this : name (call c this) = name this.
Proof.
  destruct c as [nm a o|nm a|nm|nm]; unfold call, state_after; simpl.
  - rewrite defineAction_run.
    destruct (js_in nm (actions this)); [done|]. by destruct o.
  - rewrite sync_run. destruct (syncs this !! nm); [done|].
    by destruct (inherited nm).
  - rewrite action_run. by destruct (js_in nm (actions this)).
  - rewrite handlers_run. by destruct (js_in nm (actions this)).
Qed.

(** Reading never writes. *)
Lemma action_pure nm this : state_after (action nm) this = this.
Proof.
  unfold state_after. rewrite action_run.
  by destruct (js_in nm (actions this)).
Qed.

Lemma handlers_pure nm this : state_after (handlers nm) this = this.
Proof.
  unfold state_after. rewrite handlers_run.
  by destruct (js_in nm (actions this)).
Qed.

(** A registered name keeps its body and its options entry (or the lack
    of one) through every later call. *)
Lemma call_keeps_registration c nm b this :
  actions this !! nm = Some b →
  actions (call c this) !! nm = Some b
  ∧ options (call c this) !! nm = options this !! nm.
Proof.
  intros Hb.
  destruct c as [nm' a o|nm' a|nm'|nm']; unfold call.
  - unfold state_after. rewrite defineAction_run.
    destruct (js_in nm' (actions this)) eqn:Hin; [done|].
    assert (nm' ≠ nm) as Hne.
    { intros ->. by rewrite (js_in_own _ _ _ Hb) in Hin. }
    destruct o; simpl; unfold js_set; by rewrite !lookup_insert_ne.
  - unfold state_after. rewrite sync_run.
    destruct (syncs this !! nm'); [done|]. by destruct (inherited nm').
  - by rewrite action_pure.
  - by rewrite handlers_pure.
Qed.

Lemma calls_keep_registration cs nm b this :
  actions this !! nm = Some b →
  actions (calls cs this) !! nm = Some b
  ∧ options (calls cs this) !! nm = options this !! nm.
Proof.
  revert this. induction cs as [|c cs IH]; intros this Hb; [done|].
  destruct (call_keeps_registration c nm b this Hb) as [Hb' Ho'].
  destruct (IH (call c this) Hb') as [? ?].
  unfold calls in *; simpl. split; [done|]. congruence.
Qed.

(** ** The options table stays inside the actions table *)

Lemma new_options_within_actions (d : ConceptDb St) :
  options_within_actions (new d).
Proof. intros nm [x Hx]. simpl in Hx. by rewrite lookup_empty in Hx. Qed.

Lemma call_options_within_actions c this :
  options_within_actions this → options_within_actions (call c this).
Proof.
  intros Hinv.
  destruct c as [nm' a o|nm' a|nm'|nm']; unfold call.
  - unfold state_after. rewrite defineAction_run.
    destruct (js_in nm' (actions this)); [done|].
    intros nm. destruct o; simpl; unfold js_set; intros Hnm.
    + destruct (decide (nm' = nm)) as [->|Hne].
      * rewrite lookup_insert_eq. eauto.
      * rewrite lookup_insert_ne in Hnm by done.
        rewrite lookup_insert_ne by done. by apply Hinv.
    + destruct (decide (nm' = nm)) as [->|Hne].
      * rewrite lookup_insert_eq. eauto.
      * rewrite lookup_insert_ne by done. by apply Hinv.
  - unfold state_after. rewrite sync_run.
    destruct (syncs this !! nm'); [done|]. by destruct (inherited nm').
  - by rewrite action_pure.
  - by rewrite handlers_pure.
Qed.

Lemma calls_options_within_actions cs this :
  options_within_actions this → options_within_actions (calls cs this).
Proof.
  revert this. induction cs as [|c cs IH]; intros this Hinv; [done|].
  apply (IH (call c this)). by apply call_options_within_actions.
Qed.

Lemma reachable_options_within_actions this :
  reachable this → options_within_actions this.
Proof.
  intros (d & cs & ->). apply calls_options_within_actions,
    new_options_within_actions.
Qed.

Lemma reachable_call c this : reachable this → reachable (call c this).
Proof.
  intros (d & cs & ->). exists d, (cs ++ [c]).
  unfold calls. by rewrite foldl_app.
Qed.

(** A name that can still be registered has no options entry yet. *)
Lemma unregistered_has_no_options nm this :
  reachable this → js_in nm (actions this) = false →
  options this !! nm = None.
Proof.
  intros Hr [Hnone _]%js_in_false.
  destruct (options this !! nm) as [x|] eqn:Hx; [|done].
  destruct (reachable_options_within_actions this Hr nm) as [b Hb]; [eauto|].
  congruence.
Qed.
End RouterFacts.

Section Registration.
Context {St : Type}.
Implicit Types (nm : string) (this : ConceptRouter St) (a b : Action St)
  (o : option (ActionOptions St)).

Lemma defineAction_ok nm a o this :
  result (defineAction nm a o) this = inr tt →
  js_in nm (actions this) = false.
Proof.
  unfold result. rewrite defineAction_run.
  by destruct (js_in nm (actions this)).
Qed.

Lemma defineAction_registers nm a o this :
  result (defineAction nm a o) this = inr tt →
  actions (state_after (defineAction nm a o) this) !! nm = Some a
  ∧ options (state_after (defineAction nm a o) this) !! nm =
      match o with Some opts => Some opts | None => options this !! nm end.
Proof.
  intros Hin%defineAction_ok. unfold state_after.
  rewrite defineAction_run, Hin.
  destruct o; simpl; unfold js_set; by rewrite ?lookup_insert_eq.
Qed.

Lemma action_of_registered nm b this :
  actions this !! nm = Some b → result (action nm) this = inr (Own b).
Proof.
  intros Hb. unfold result. rewrite action_run, (js_in_own _ _ _ Hb).
  unfold js_get. by rewrite Hb.
Qed.

Lemma handlers_of_registered nm b this :
  actions this !! nm = Some b →
  result (handlers nm) this =
    inr ((Own <$> supplied_validators (options this !! nm)) ++ [Own b]).
Proof.
  intros Hb. unfold result. rewrite handlers_run, (js_in_own _ _ _ Hb).
  unfold js_get. by rewrite Hb.
Qed.

(** The chain of a registered name, after any later calls. *)
Lemma handlers_after_calls nm b o cs this :
  result (defineAction nm b o) this = inr tt →
  result (handlers nm) (calls cs (state_after (defineAction nm b o) this)) =
    inr ((Own <$> supplied_validators
                    match o with
                    | Some opts => Some opts
                    | None => options this !! nm
                    end) ++ [Own b]).
Proof.
  intros Hok.
  destruct (defineAction_registers _ _ _ _ Hok) as [Hb Ho].
  destruct (calls_keep_registration cs _ _ _ Hb) as [Hb' Ho'].
  by rewrite (handlers_of_registered _ _ _ Hb'), Ho', Ho.
Qed.

Lemma handlers_after_calls_reachable nm b o cs this :
  reachable this →
  result (defineAction nm b o) this = inr tt →
  result (handlers nm) (calls cs (state_after (defineAction nm b o) this)) =
    inr ((Own <$> supplied_validators o) ++ [Own b]).
Proof.
  intros Hr Hok. rewrite (handlers_after_calls _ _ _ cs _ Hok).
  destruct o as [opts|]; [done|].
  by rewrite (unregistered_has_no_options nm this Hr (defineAction_ok _ _ _ _ Hok)).
Qed.

(** A name that no call registered and that [Object.prototype] does not
    define is unknown to [action] and to [handlers]. *)
Lemma never_defined_not_own cs nm this :
  actions this !! nm = None →
  (∀ a o, DefineAction nm a o ∉ cs) →
  actions (calls cs this) !! nm = None.
Proof.
  revert this. induction cs as [|c cs IH]; intros this Hnone Hcs; [done|].
  apply (IH (call c this)).
  - destruct c as [nm' a o|nm' a|nm'|nm']; unfold call.
    + unfold state_after. rewrite defineAction_run.
      destruct (js_in nm' (actions this)); [done|].
      assert (nm' ≠ nm) as Hne.
      { intros ->. apply (Hcs a o). by left. }
      destruct o; simpl; unfold js_set; by rewrite lookup_insert_ne.
    + unfold state_after. rewrite sync_run.
      destruct (syncs this !! nm'); [done|]. by destruct (inherited nm').
    + by rewrite action_pure.
    + by rewrite handlers_pure.
  - intros a o Hin. apply (Hcs a o). by right.
Qed.

Lemma unregistered_name_throws (d : ConceptDb St) cs nm :
  inherited nm = false →
  (∀ a o, DefineAction nm a o ∉ cs) →
  result (action nm) (calls cs (new d)) =
    inl (does_not_exist nm (calls cs (new d)))
  ∧ result (handlers nm) (calls cs (new d)) = inl (is_not_defined nm).
Proof.
  intros Hproto Hcs.
  assert (js_in nm (actions (calls cs (new d))) = false) as Hin.
  { apply js_in_false. split; [|done].
    by apply never_defined_not_own. }
  unfold result. by rewrite action_run, handlers_run, Hin.
Qed.

(** [sync] on a name that [Object.prototype] does not define appends to
    the name's list, starting it when there is none. *)
Lemma sync_appends nm a this :
  inherited nm = false →
  result (sync nm a) this = inr tt
  ∧ syncs (state_after (sync nm a) this) !! nm =
      Some (default [] (syncs this !! nm) ++ [a]).
Proof.
  intros Hproto. unfold result, state_after. rewrite sync_run, Hproto.
  destruct (syncs this !! nm); simpl; unfold js_set;
    by rewrite lookup_insert_eq.
Qed.

Lemma sync_twice nm f1 f2 this :
  inherited nm = false → syncs this !! nm = None →
  result (sync nm f1) this = inr tt
  ∧ result (sync nm f2) (state_after (sync nm f1) this) = inr tt
  ∧ syncs (calls [Sync nm f1; Sync nm f2] this) !! nm = Some [f1; f2].
Proof.
  intros Hproto Hnone.
  destruct (sync_appends nm f1 this Hproto) as [Hr1 Hs1].
  destruct (sync_appends nm f2 (state_after (sync nm f1) this) Hproto)
    as [Hr2 Hs2].
  split; [done|]. split; [done|].
  unfold calls; simpl. rewrite Hs2, Hs1, Hnone. done.
Qed.

(** C1. Calling [defineAction] again with a name always throws the
    "already defined" error and leaves the instance as it was; when the
    first call registered its body [b1], [action] still returns [b1] and
    [handlers] still ends with [b1] after the failed second call. *)
Theorem defineAction_twice_fails nm b1 o1 b2 o2 this :
  let this1 := state_after (defineAction nm b1 o1) this in
  let this2 := state_after (defineAction nm b2 o2) this1 in
  result (defineAction nm b2 o2) this1 = inl (already_defined nm this1)
  ∧ this2 = this1
  ∧ (reachable this → result (defineAction nm b1 o1) this = inr tt →
     result (action nm) this2 = inr (Own b1)
     ∧ result (handlers nm) this2 =
         inr ((Own <$> supplied_validators o1) ++ [Own b1])).
Proof.
  intros this1 this2.
  assert (js_in nm (actions this1) = true) as Hin.
  { unfold this1, state_after. rewrite defineAction_run.
    destruct (js_in nm (actions this)) eqn:Hin; [done|].
    eapply js_in_own.
    destruct o1; simpl; unfold js_set; apply lookup_insert_eq. }
  assert (this2 = this1) as Heq.
  { unfold this2, state_after. by rewrite defineAction_run, Hin. }
  split; [|split; [done|]].
  - unfold result. by rewrite defineAction_run, Hin.
  - intros Hr Hok. rewrite Heq.
    destruct (defineAction_registers _ _ _ _ Hok) as [Hb _].
    split; [by apply action_of_registered|].
    apply (handlers_after_calls_reachable nm b1 o1 [] this Hr Hok).
Qed.

(** C3. After [defineAction(name, b, { validate: [v1, ..., vk] })]
    succeeds, every call of [handlers(name)], whatever calls were made in
    between, returns [v1, ..., vk, b] in that order. *)
Theorem handlers_validators_then_body nm b vs cs this :
  result (defineAction nm b (Some {| validate := Some vs |})) this = inr tt →
  result (handlers nm)
    (calls cs (state_after
       (defineAction nm b (Some {| validate := Some vs |})) this)) =
    inr ((Own <$> vs) ++ [Own b]).
Proof. intros Hok. by rewrite (handlers_after_calls _ _ _ cs _ Hok). Qed.

(** C10. When the options passed to a successful [defineAction] have no
    [validate] list, or an empty one, [handlers(name)] returns the
    one-element list [[body]], exactly as when no options are passed. *)
Theorem handlers_without_validators nm b o cs this :
  reachable this →
  o = Some {| validate := None |} ∨ o = Some {| validate := Some [] |} →
  result (defineAction nm b o) this = inr tt →
  result (handlers nm) (calls cs (state_after (defineAction nm b o) this)) =
    inr [Own b]
  ∧ result (handlers nm)
      (calls cs (state_after (defineAction nm b None) this)) = inr [Own b].
Proof.
  intros Hr Ho Hok.
  assert (result (defineAction nm b None) this = inr tt) as Hok'.
  { apply defineAction_ok in Hok. unfold result.
    by rewrite defineAction_run, Hok. }
  rewrite (handlers_after_calls_reachable _ _ _ cs _ Hr Hok),
    (handlers_after_calls_reachable _ _ _ cs _ Hr Hok').
  by destruct Ho as [-> | ->].
Qed.

(** C5 (amended). A successful [defineAction(name, body, options)] adds
    [name ↦ body] to [actions], a key that was not there; it adds
    [name ↦ options] to [options] exactly when an options argument is
    passed, with or without a [validate] list, and leaves [options] as it
    was when none is passed; [syncs] is untouched. *)
Theorem defineAction_tables nm a o this :
  result (defineAction nm a o) this = inr tt →
  actions this !! nm = None
  ∧ actions (state_after (defineAction nm a o) this) = <[nm := a]> (actions this)
  ∧ options (state_after (defineAction nm a o) this) =
      match o with
      | Some opts => <[nm := opts]> (options this)
      | None => options this
      end
  ∧ syncs (state_after (defineAction nm a o) this) = syncs this.
Proof.
  intros Hin%defineAction_ok.
  split; [by apply js_in_false in Hin as [? _]|].
  unfold state_after. rewrite defineAction_run, Hin. by destruct o.
Qed.

(** C9. In every instance reached from the constructor by calls of
    [defineAction], [sync], [action] and [handlers], a name that has an
    entry in [options] has one in [actions], and a name that [in] finds
    in [options] it finds in [actions]. *)
Theorem options_names_are_action_names this nm :
  reachable this →
  (is_Some (options this !! nm) → is_Some (actions this !! nm))
  ∧ (js_in nm (options this) = true → js_in nm (actions this) = true).
Proof.
  intros Hr. pose proof (reachable_options_within_actions this Hr nm) as Hinv.
  split; [done|].
  unfold js_in. destruct (options this !! nm) as [x|] eqn:Hx.
  - intros _. destruct Hinv as [b ->]; eauto.
  - intros ->. by destruct (actions this !! nm).
Qed.

(** C2. On a new instance, where nothing is registered, [action] and
    [handlers] do not throw for a name that [Object.prototype] defines:
    they return the inherited member. *)
Theorem inherited_name_is_served (d : ConceptDb St) nm :
  inherited nm = true →
  result (action nm) (new d) = inr (Inherited nm)
  ∧ result (handlers nm) (new d) = inr [Inherited nm].
Proof.
  intros Hproto. unfold result.
  rewrite action_run, handlers_run. unfold js_in, js_get; simpl.
  by rewrite !lookup_empty, Hproto.
Qed.

(** C4. On a new instance, [sync] with a name that [Object.prototype]
    defines throws a [TypeError] and records nothing. *)
Theorem sync_inherited_name_throws (d : ConceptDb St) nm f :
  inherited nm = true →
  sync nm f (new d) = (inl push_is_not_a_function, new d).
Proof.
  intros Hproto. rewrite sync_run; simpl.
  by rewrite lookup_empty, Hproto.
Qed.
End Registration.

(** * Properties of the sort *)

Section SortingFacts.
Context {A : Type} (le : A → A → bool).

Lemma insert_sorted_permutation x l : insert_sorted le x l ≡ₚ x :: l.
Proof.
  induction l as [|y l IH]; simpl; [done|].
  destruct (le x y); [done|]. rewrite IH. apply Permutation_swap.
Qed.

Lemma sort_by_permutation l : sort_by le l ≡ₚ l.
Proof.
  induction l as [|x l IH]; simpl; [done|].
  by rewrite insert_sorted_permutation, IH.
Qed.

(** On elements for which [le] decides a relation [R] one way or the
    other, the sort orders by [R]. *)
Context (P : A → Prop) (R : relation A).
Hypothesis le_true : ∀ x y, P x → P y → le x y = true → R x y.
Hypothesis le_false : ∀ x y, P x → P y → le x y = false → R y x.

Lemma insert_sorted_HdRel x y l :
  P x → P y → Forall P l → le x y = false → HdRel R y l →
  HdRel R y (insert_sorted le x l).
Proof.
  intros Hx Hy Hl Hxy Hhd. destruct l as [|z l]; simpl.
  - constructor. by apply le_false.
  - destruct (le x z); constructor.
    + by apply le_false.
    + by inversion Hhd.
Qed.

Lemma insert_sorted_Sorted x l :
  P x → Forall P l → Sorted R l → Sorted R (insert_sorted le x l).
Proof.
  intros Hx. induction l as [|y l IH]; intros Hl Hs; simpl.
  - by repeat constructor.
  - apply Forall_cons in Hl as [Hy Hl].
    apply Sorted_inv in Hs as [Hs Hhd].
    destruct (le x y) eqn:Hxy.
    + constructor; [by constructor|]. constructor. by apply le_true.
    + constructor; [by apply IH|]. by apply insert_sorted_HdRel.
Qed.

Lemma sort_by_Sorted l : Forall P l → Sorted R (sort_by le l).
Proof.
  induction l as [|x l IH]; intros Hl; simpl; [constructor|].
  apply Forall_cons in Hl as [Hx Hl].
  apply insert_sorted_Sorted; [done| |by apply IH].
  by rewrite sort_by_permutation.
Qed.
End SortingFacts.

Lemma StronglySorted_lookup {A} (R : relation A) l i j x y :
  StronglySorted R l → (i < j)%nat → l !! i = Some x → l !! j = Some y → R x y.
Proof.
  intros Hs. revert i j. induction Hs as [|z l Hs IH Hall]; intros i j Hij Hi Hj.
  - by rewrite lookup_nil in Hi.
  - destruct j as [|j]; [lia|]. destruct i as [|i]; simpl in *.
    + injection Hi as ->. by eapply Forall_lookup_1 in Hall.
    + apply (IH i j); [lia|done..].
  Qed.

(** * Properties of the bodies, for any store *)

Section BodyFacts.
Context {St : Type} (ObjectId_new : string → Exn + ObjectId).
Implicit Types (d : ConceptDb St) (req : Request) (w : World St).

Lemma read_body_run d req w :
  read_body d req w =
    match readMany d (query_filter req)
            {| sort := [("dateUpdated", (-1)%Z)] |} (store w) with
    | (inr documents, st) =>
        (inr tt, {| store := st; sent := sent w ++ [DocumentsJson documents] |})
    | (inl e, st) => (inl e, {| store := st; sent := sent w |})
    end.
Proof.
  unfold read_body, bind, await, res_json, modify.
  by destruct (readMany d _ _ (store w)) as [[e|documents] st].
Qed.

Lemma update_body_run d req w :
  update_body ObjectId_new d req w =
    match ObjectId_new (params__id req) with
    | inl e => (inl e, w)
    | inr _id =>
        match updateOneById d _id (body_partialDocument req) (store w) with
        | (inl e, st) => (inl e, {| store := st; sent := sent w |})
        | (inr _, st) =>
            match readOneById d _id st with
            | (inl e, st') => (inl e, {| store := st'; sent := sent w |})
            | (inr document, st') =>
                (inr tt, {| store := st';
                            sent := sent w ++ [DocumentJson document] |})
            end
        end
    end.
Proof.
  unfold update_body, new_ObjectId, bind, await, res_json, modify, throw, ret.
  destruct (ObjectId_new (params__id req)) as [e|_id]; [done|].
  destruct (updateOneById d _ _ (store w)) as [[e|u] st]; simpl; [done|].
  by destruct (readOneById d _ st) as [[e|document] st'].
Qed.

Lemma delete_body_run d req w :
  delete_body ObjectId_new d req w =
    match ObjectId_new (params__id req) with
    | inl e => (inl e, w)
    | inr _id =>
        match popOneById d _id (store w) with
        | (inl e, st) => (inl e, {| store := st; sent := sent w |})
        | (inr document, st) =>
            (inr tt, {| store := st;
                        sent := sent w ++ [DocumentJson document] |})
        end
    end.
Proof.
  unfold delete_body, new_ObjectId, bind, await, res_json, modify, throw, ret.
  destruct (ObjectId_new (params__id req)) as [e|_id]; [done|].
  by destruct (popOneById d _ (store w)) as [[e|document] st].
Qed.

(** What a generator registers on a new instance. *)
Lemma defineAction_on_new d nm (a : Action St) o :
  inherited nm = false →
  result (defineAction nm a o) (new d) = inr tt
  ∧ result (action nm) (state_after (defineAction nm a o) (new d)) =
      inr (Own a).
Proof.
  intros Hproto.
  assert (result (defineAction nm a o) (new d) = inr tt) as Hok.
  { unfold result. rewrite defineAction_run. unfold js_in; simpl.
    by rewrite lookup_empty, Hproto. }
  split; [done|].
  by apply action_of_registered, defineAction_registers.
Qed.

Lemma defineReadAction_registers d o :
  result (action "read") (state_after (defineReadAction o) (new d)) =
    inr (Own (read_body d)).
Proof. by apply (defineAction_on_new d "read"). Qed.

Lemma defineUpdateAction_registers d o :
  result (action "update")
    (state_after (defineUpdateAction ObjectId_new o) (new d)) =
    inr (Own (update_body ObjectId_new d)).
Proof. by apply (defineAction_on_new d "update"). Qed.

Lemma defineDeleteAction_registers d o :
  result (action "delete")
    (state_after (defineDeleteAction ObjectId_new o) (new d)) =
    inr (Own (delete_body ObjectId_new d)).
Proof. by apply (defineAction_on_new d "delete"). Qed.
End BodyFacts.

(** * Properties of the bodies on the modelled store *)

Section StoreFacts.
Implicit Types (d : Document) (docs : list Document) (id : ObjectId).

Lemma dateUpdated_field d t :
  dateUpdated d = Some t → MemDb.field "dateUpdated" d = JDate t.
Proof.
  unfold dateUpdated, MemDb.field.
  destruct (d !! "dateUpdated") as [[]|]; simpl; congruence.
Qed.

#[local] Instance not_older_transitive : Transitive not_older.
Proof.
  intros a b c (ta & tb & Ha & Hb & Hab) (tb' & tc & Hb' & Hc & Hbc).
  exists ta, tc. split; [done|]. split; [done|].
  assert (tb' = tb) by congruence. lia.
Qed.

Lemma descending_leb a b :
  is_Some (dateUpdated a) → is_Some (dateUpdated b) →
  if MemDb.doc_leb [("dateUpdated", (-1)%Z)] a b
  then not_older a b else not_older b a.
Proof.
  intros [ta Ha] [tb Hb]. unfold MemDb.doc_leb; simpl.
  rewrite (dateUpdated_field a ta Ha), (dateUpdated_field b tb Hb); simpl.
  destruct (Z.compare_spec ta tb); simpl.
  - exists ta, tb. split; [done|]. split; [done|]. lia.
  - exists tb, ta. split; [done|]. split; [done|]. lia.
  - exists ta, tb. split; [done|]. split; [done|]. lia.
Qed.

Lemma readMany_descending f docs n :
  Forall (λ d, is_Some (dateUpdated d)) docs →
  ∃ found,
    MemDb.readMany f {| sort := [("dateUpdated", (-1)%Z)] |}
      {| MemDb.documents := docs; MemDb.issued := n |} =
      (inr found, {| MemDb.documents := docs; MemDb.issued := n |})
    ∧ found ≡ₚ List.filter (MemDb.matches f) docs
    ∧ newest_first found.
Proof.
  intros Hdated. eexists. split; [reflexivity|]. simpl.
  split; [apply sort_by_permutation|].
  set (le := MemDb.doc_leb [("dateUpdated", (-1)%Z)]).
  set (matching := List.filter (MemDb.matches f) docs).
  assert (Forall (λ d, is_Some (dateUpdated d)) matching) as Hm.
  { apply Forall_forall. intros d Hd.
    apply list_elem_of_In, filter_In in Hd as [Hd _].
    rewrite Forall_forall in Hdated. by apply Hdated, list_elem_of_In. }
  assert (StronglySorted not_older (sort_by le matching)) as Hs.
  { apply Sorted_StronglySorted; [apply _|].
    apply (sort_by_Sorted le (λ d, is_Some (dateUpdated d))); [| |done].
    - intros x y Hx Hy Hle.
      pose proof (descending_leb x y Hx Hy) as H. unfold le in Hle.
      by rewrite Hle in H.
    - intros x y Hx Hy Hle.
      pose proof (descending_leb x y Hx Hy) as H. unfold le in Hle.
      by rewrite Hle in H. }
  intros i j di dj ti tj Hij Hi Hj Hti Htj.
  destruct (StronglySorted_lookup _ _ _ _ _ _ Hs Hij Hi Hj)
    as (ta & tb & Ha & Hb & Hab).
  assert (ta = ti) by congruence. assert (tb = tj) by congruence. lia.
Qed.

(** The patch of [updateOneById], seen by a later [readOneById]. *)
Lemma find_patched id (patch : Document) docs doc :
  patch !! "_id" = None →
  List.find (MemDb.has_id id) docs = Some doc →
  List.find (MemDb.has_id id)
    ((λ d, if MemDb.has_id id d then patch ∪ d else d) <$> docs) =
    Some (patch ∪ doc).
Proof.
  intros Hpatch. induction docs as [|d docs IH]; simpl; [done|].
  destruct (MemDb.has_id id d) eqn:Hd.
  - intros [= ->].
    assert (MemDb.has_id id (patch ∪ doc) = true) as ->; [|done].
    unfold MemDb.has_id in *. apply bool_decide_eq_true.
    apply bool_decide_eq_true in Hd. by rewrite lookup_union_r.
  - rewrite Hd. apply IH.
Qed.

Lemma remove_first_miss (p : Document → bool) docs :
  List.find p docs = None → MemDb.remove_first p docs = docs.
Proof.
  induction docs as [|d docs IH]; simpl; [done|].
  destruct (p d); [done|]. intros H. by rewrite IH.
Qed.

Lemma remove_first_hit (p : Document → bool) docs doc :
  List.find p docs = Some doc →
  docs ≡ₚ doc :: MemDb.remove_first p docs.
Proof.
  induction docs as [|d docs IH]; simpl; [done|].
  destruct (p d).
  - by intros [= ->].
  - intros H. rewrite (IH H) at 1. apply Permutation_swap.
Qed.
End StoreFacts.

Section CrudClaims.
Context {St : Type} (ObjectId_new : string → Exn + ObjectId).
Implicit Types (any : ConceptDb St) (w : World St) (req : Request)
  (o : option (ActionOptions MemDb.Store)) (docs : list Document).

(** C6. The body that [defineReadAction] registers passes the request's
    filter to [readMany] with the sort [{ dateUpdated: -1 }] and answers
    with the documents it gets.  On the modelled store, holding
    documents that all have an update time, the answer is the matching
    documents, each at least as recently updated as those after it. *)
Theorem read_body_newest_first any w resource o docs n req prior :
  Forall (λ d, is_Some (dateUpdated d)) docs →
  let d := MemDb.conceptDb resource in
  let st := {| MemDb.documents := docs; MemDb.issued := n |} in
  read_body any req w =
    match readMany any (query_filter req)
            {| sort := [("dateUpdated", (-1)%Z)] |} (store w) with
    | (inr documents, st') =>
        (inr tt, {| store := st'; sent := sent w ++ [DocumentsJson documents] |})
    | (inl e, st') => (inl e, {| store := st'; sent := sent w |})
    end
  ∧ result (action "read") (state_after (defineReadAction o) (new d)) =
      inr (Own (read_body d))
  ∧ ∃ found,
      read_body d req {| store := st; sent := prior |} =
        (inr tt, {| store := st; sent := prior ++ [DocumentsJson found] |})
      ∧ found ≡ₚ List.filter (MemDb.matches (query_filter req)) docs
      ∧ newest_first found.
Proof.
  intros Hdated d st.
  split; [apply read_body_run|].
  split; [apply defineReadAction_registers|].
  destruct (readMany_descending (query_filter req) docs n Hdated)
    as (found & Hrun & Hperm & Hsorted).
  exists found. split; [|done].
  rewrite read_body_run.
  change (readMany d) with MemDb.readMany. cbn [store sent].
  fold st in Hrun. by rewrite Hrun.
Qed.

(** C7. The body that [defineUpdateAction] registers calls
    [updateOneById] with the identifier and the patch, then
    [readOneById] with the identifier, and answers with what that read
    returns.  On the modelled store, for the identifier of a stored
    document and a patch without [_id], the answer is the stored document
    after the patch: the patch's fields with their new values, every
    other field as it was, and so not the patch alone. *)
Theorem update_body_refetches any w resource o docs n req prior id doc :
  ObjectId_new (params__id req) = inr id →
  List.find (MemDb.has_id id) docs = Some doc →
  body_partialDocument req !! "_id" = None →
  let d := MemDb.conceptDb resource in
  let patch := body_partialDocument req in
  let st := {| MemDb.documents := docs; MemDb.issued := n |} in
  let st' := state_after (MemDb.updateOneById id patch) st in
  update_body ObjectId_new any req w =
    match updateOneById any id patch (store w) with
    | (inl e, st1) => (inl e, {| store := st1; sent := sent w |})
    | (inr _, st1) =>
        match readOneById any id st1 with
        | (inl e, st2) => (inl e, {| store := st2; sent := sent w |})
        | (inr document, st2) =>
            (inr tt, {| store := st2;
                        sent := sent w ++ [DocumentJson document] |})
        end
    end
  ∧ result (action "update")
      (state_after (defineUpdateAction ObjectId_new o) (new d)) =
      inr (Own (update_body ObjectId_new d))
  ∧ update_body ObjectId_new d req {| store := st; sent := prior |} =
      (inr tt, {| store := st';
                  sent := prior ++ [DocumentJson (Some (patch ∪ doc))] |})
  ∧ MemDb.readOneById id st' = (inr (Some (patch ∪ doc)), st')
  ∧ (∀ f v, patch !! f = Some v → (patch ∪ doc) !! f = Some v)
  ∧ (∀ f, patch !! f = None → (patch ∪ doc) !! f = doc !! f)
  ∧ patch ∪ doc ≠ patch.
Proof.
  intros Hid Hdoc Hpatch d patch st st'.
  pose proof (find_patched id patch docs doc Hpatch Hdoc) as Hfind.
  split; [by rewrite update_body_run, Hid|].
  split; [apply defineUpdateAction_registers|].
  split; [|split; [|split; [|split]]].
  - rewrite update_body_run, Hid.
    change (updateOneById d) with MemDb.updateOneById.
    change (readOneById d) with MemDb.readOneById.
    unfold st', st, state_after, MemDb.readOneById, MemDb.updateOneById,
      modify.
    cbn [store sent fst snd MemDb.documents]. fold patch.
    by rewrite Hfind.
  - unfold st', st, state_after, MemDb.readOneById, MemDb.updateOneById,
      modify.
    cbn [fst snd MemDb.documents]. by rewrite Hfind.
  - intros f v Hf. by apply lookup_union_Some_l.
  - intros f Hf. by apply lookup_union_r.
  - intros Heq. apply find_some in Hdoc as [_ Hhas].
    apply bool_decide_eq_true in Hhas.
    apply (f_equal (λ m : Document, m !! "_id")) in Heq.
    rewrite lookup_union_r, Hhas in Heq by done. unfold patch in Heq.
    congruence.
Qed.

(** C8. The body that [defineDeleteAction] registers calls [popOneById]
    with the identifier and answers with what it returns.  On the
    modelled store, when no stored document has the identifier the body
    returns without an exception, answers [{ document: null }] and
    leaves the store as it was; when one has, the body answers with that
    document, which the store no longer holds. *)
Theorem delete_body_miss_and_hit any w resource o docs n req prior id :
  ObjectId_new (params__id req) = inr id →
  let d := MemDb.conceptDb resource in
  let st := {| MemDb.documents := docs; MemDb.issued := n |} in
  delete_body ObjectId_new any req w =
    match popOneById any id (store w) with
    | (inl e, st1) => (inl e, {| store := st1; sent := sent w |})
    | (inr document, st1) =>
        (inr tt, {| store := st1;
                    sent := sent w ++ [DocumentJson document] |})
    end
  ∧ result (action "delete")
      (state_after (defineDeleteAction ObjectId_new o) (new d)) =
      inr (Own (delete_body ObjectId_new d))
  ∧ (List.find (MemDb.has_id id) docs = None →
     delete_body ObjectId_new d req {| store := st; sent := prior |} =
       (inr tt, {| store := st; sent := prior ++ [DocumentJson None] |}))
  ∧ (∀ doc, List.find (MemDb.has_id id) docs = Some doc →
     ∃ rest,
       delete_body ObjectId_new d req {| store := st; sent := prior |} =
         (inr tt, {| store := {| MemDb.documents := rest; MemDb.issued := n |};
                     sent := prior ++ [DocumentJson (Some doc)] |})
       ∧ docs ≡ₚ doc :: rest).
Proof.
  intros Hid d st.
  split; [by rewrite delete_body_run, Hid|].
  split; [apply defineDeleteAction_registers|].
  split.
  - intros Hmiss. rewrite delete_body_run, Hid.
    change (popOneById d) with MemDb.popOneById.
    unfold MemDb.popOneById, st.
    cbn [store sent MemDb.documents MemDb.issued].
    by rewrite Hmiss, (remove_first_miss _ _ Hmiss).
  - intros doc Hhit. exists (MemDb.remove_first (MemDb.has_id id) docs).
    split; [|by apply remove_first_hit].
    rewrite delete_body_run, Hid.
    change (popOneById d) with MemDb.popOneById.
    unfold MemDb.popOneById, st.
    cbn [store sent MemDb.documents MemDb.issued].
    by rewrite Hhit.
Qed.
End CrudClaims.

(** * The statements on the sample data *)

Section Instances.
Import Sample.

Lemma new_reachable {St} (d : ConceptDb St) : reachable (new d).
Proof. by exists d, []. Qed.

Lemma defineAction_twice_fails_witness :
  let this := new posts in
  let o1 := Some {| validate := Some [v1; v2] |} in
  let this1 := state_after (defineAction "publish" b1 o1) this in
  let this2 := state_after (defineAction "publish" b2 None) this1 in
  reachable this
  ∧ result (defineAction "publish" b1 o1) this = inr tt
  ∧ result (defineAction "publish" b2 None) this1 =
      inl (Error "Action publish already defined in post concept!")
  ∧ this2 = this1
  ∧ result (action "publish") this2 = inr (Own b1)
  ∧ result (handlers "publish") this2 = inr [Own v1; Own v2; Own b1].
Proof.
  intros this o1 this1 this2.
  assert (reachable this) as Hr by apply new_reachable.
  assert (result (defineAction "publish" b1 o1) this = inr tt) as Hok
    by (vm_compute; reflexivity).
  destruct (defineAction_twice_fails "publish" b1 o1 b2 None this)
    as (Hfail & Hsame & Hkeep).
  destruct (Hkeep Hr Hok) as [Ha Hh].
  split; [exact Hr|]. split; [exact Hok|]. split; [exact Hfail|].
  split; [exact Hsame|]. split; [exact Ha|exact Hh].
Defined.

Lemma handlers_validators_then_body_witness :
  let later :=
    [Sync "publish" f1; DefineAction "publish" b2 None; Handlers "publish";
     DefineAction "archive" b2 (Some {| validate := Some [v2] |})] in
  let o := Some {| validate := Some [v1; v2] |} in
  result (defineAction "publish" b1 o) (new posts) = inr tt
  ∧ result (handlers "publish")
      (calls later (state_after (defineAction "publish" b1 o) (new posts))) =
      inr [Own v1; Own v2; Own b1].
Proof.
  intros later o.
  assert (result (defineAction "publish" b1 o) (new posts) = inr tt) as Hok
    by (vm_compute; reflexivity).
  split; [exact Hok|].
  exact (handlers_validators_then_body "publish" b1 [v1; v2] later
           (new posts) Hok).
Defined.

Lemma handlers_without_validators_witness :
  let o := Some {| validate := None |} in
  reachable (new posts)
  ∧ result (defineAction "publish" b1 o) (new posts) = inr tt
  ∧ result (handlers "publish")
      (calls [Sync "publish" f1]
         (state_after (defineAction "publish" b1 o) (new posts))) =
      inr [Own b1]
  ∧ result (handlers "publish")
      (calls [Sync "publish" f1]
         (state_after (defineAction "publish" b1 None) (new posts))) =
      inr [Own b1].
Proof.
  intros o.
  assert (result (defineAction "publish" b1 o) (new posts) = inr tt) as Hok
    by (vm_compute; reflexivity).
  split; [apply new_reachable|]. split; [exact Hok|].
  exact (handlers_without_validators "publish" b1 o [Sync "publish" f1]
           (new posts) (new_reachable posts) (or_introl eq_refl) Hok).
Defined.

(** C5, as stated, fails: options without a [validate] list are stored
    in [options] all the same. *)
Lemma options_stored_without_validators :
  ¬ (∀ (this : ConceptRouter MemDb.Store) nm a o,
       result (defineAction nm a o) this = inr tt →
       ¬ carries_validators o →
       options (state_after (defineAction nm a o) this) = options this).
Proof.
  intros Hclaim.
  specialize (Hclaim (new posts) "publish" b1 (Some {| validate := None |})).
  assert (options (state_after
            (defineAction "publish" b1 (Some {| validate := None |}))
            (new posts)) !! "publish" = Some {| validate := None |}) as Hin
    by (vm_compute; reflexivity).
  rewrite Hclaim in Hin.
  - simpl in Hin. by rewrite lookup_empty in Hin.
  - vm_compute; reflexivity.
  - intros (opts & vs & [= <-] & Hvs). discriminate Hvs.
Qed.

Lemma defineAction_tables_witness :
  let o := Some {| validate := None |} in
  let this' := state_after (defineAction "publish" b1 o) (new posts) in
  result (defineAction "publish" b1 o) (new posts) = inr tt
  ∧ actions this' = {[ "publish" := b1 ]}
  ∧ options this' = {[ "publish" := {| validate := None |} ]}
  ∧ syncs this' = ∅.
Proof.
  intros o this'.
  assert (result (defineAction "publish" b1 o) (new posts) = inr tt) as Hok
    by (vm_compute; reflexivity).
  destruct (defineAction_tables "publish" b1 o (new posts) Hok)
    as (_ & Ha & Ho & Hs).
  split; [exact Hok|]. split; [exact Ha|]. split; [exact Ho|exact Hs].
Defined.

Lemma options_names_are_action_names_witness :
  let this :=
    calls [DefineAction "publish" b1 (Some {| validate := Some [v1] |});
           Sync "archive" f1] (new posts) in
  reachable this
  ∧ is_Some (options this !! "publish")
  ∧ is_Some (actions this !! "publish").
Proof.
  intros this.
  assert (reachable this) as Hr by (by eexists posts, _).
  assert (is_Some (options this !! "publish")) as Ho
    by (eexists; vm_compute; reflexivity).
  split; [exact Hr|]. split; [exact Ho|].
  exact (proj1 (options_names_are_action_names this "publish" Hr) Ho).
Defined.

Lemma inherited_name_is_served_witness :
  inherited "toString" = true
  ∧ result (action "toString") (new posts) = inr (Inherited "toString")
  ∧ result (handlers "toString") (new posts) = inr [Inherited "toString"].
Proof.
  assert (inherited "toString" = true) as Hproto by (vm_compute; reflexivity).
  split; [exact Hproto|].
  exact (inherited_name_is_served posts "toString" Hproto).
Defined.

Lemma sync_inherited_name_throws_witness :
  inherited "constructor" = true
  ∧ sync "constructor" f1 (new posts) =
      (inl (TypeError "this.syncs[name].push is not a function"), new posts).
Proof.
  assert (inherited "constructor" = true) as Hproto
    by (vm_compute; reflexivity).
  split; [exact Hproto|].
  exact (sync_inherited_name_throws posts "constructor" f1 Hproto).
Defined.

(** The registry on names of the ordinary kind. *)
Example sync_f1_f2 :
  result (sync "publish" f1) (new posts) = inr tt
  ∧ syncs (calls [Sync "publish" f1; Sync "publish" f2] (new posts))
      !! "publish" = Some [f1; f2].
Proof.
  destruct (sync_twice "publish" f1 f2 (new posts)) as (H1 & _ & H2);
    [by vm_compute|done|]. by split.
Qed.

Example unknown_name_throws :
  result (action "publish") (new posts) =
    inl (Error "Action publish does not exist in post concept!")
  ∧ result (handlers "publish") (new posts) =
      inl (Error "Action publish is not defined!").
Proof. split; vm_compute; reflexivity. Qed.
End Instances.

Section Scenarios.
Import Sample.

Lemma stored_dated :
  Forall (λ d, is_Some (dateUpdated d)) (MemDb.documents stored).
Proof. repeat constructor; by eexists. Qed.

(** Documents updated at 100 < 200 < 300, stored in another order, are
    read with the empty filter in the order 300, 200, 100. *)
Lemma read_body_newest_first_witness :
  Forall (λ d, is_Some (dateUpdated d)) [d2; d1; d3]
  ∧ read_body posts (request "" ∅ ∅) {| store := stored; sent := [] |} =
      (inr tt, {| store := stored; sent := [DocumentsJson [d3; d2; d1]] |})
  ∧ newest_first [d3; d2; d1].
Proof.
  split; [exact stored_dated|].
  destruct (read_body_newest_first posts {| store := stored; sent := [] |}
              "post" None [d2; d1; d3] 3 (request "" ∅ ∅) [] stored_dated)
    as (_ & _ & found & Hrun & _ & Hsorted).
  assert (read_body posts (request "" ∅ ∅) {| store := stored; sent := [] |} =
            (inr tt, {| store := stored;
                        sent := [DocumentsJson [d3; d2; d1]] |})) as Hcomputed
    by (vm_compute; reflexivity).
  assert (found = [d3; d2; d1]) as Hfound.
  { change (MemDb.conceptDb "post") with posts in Hrun.
    change {| MemDb.documents := [d2; d1; d3]; MemDb.issued := 3 |}
      with stored in Hrun.
    rewrite Hcomputed in Hrun. simpl in Hrun. congruence. }
  split; [exact Hcomputed|]. rewrite <- Hfound. exact Hsorted.
Defined.

(** Updating [id1] with the patch [{ title: "y" }] answers with the whole
    document: the new title, and [_id] and [dateUpdated] as they were. *)
Lemma update_body_refetches_witness :
  let req := request (hex id1) {[ "title" := JString "y" ]} ∅ in
  let updated : Document :=
    {[ "_id" := JObjectId id1; "title" := JString "y";
       "dateUpdated" := JDate 100 ]} in
  MemDb.ObjectId_new (params__id req) = inr id1
  ∧ List.find (MemDb.has_id id1) [d2; d1; d3] = Some d1
  ∧ body_partialDocument req !! "_id" = None
  ∧ update_body MemDb.ObjectId_new posts req {| store := stored; sent := [] |} =
      (inr tt,
       {| store := {| MemDb.documents := [d2; updated; d3]; MemDb.issued := 3 |};
          sent := [DocumentJson (Some updated)] |}).
Proof.
  intros req updated.
  assert (MemDb.ObjectId_new (params__id req) = inr id1) as Hid
    by (vm_compute; reflexivity).
  assert (List.find (MemDb.has_id id1) [d2; d1; d3] = Some d1) as Hdoc
    by (vm_compute; reflexivity).
  assert (body_partialDocument req !! "_id" = None) as Hpatch
    by (vm_compute; reflexivity).
  destruct (update_body_refetches MemDb.ObjectId_new posts
              {| store := stored; sent := [] |} "post" None [d2; d1; d3] 3
              req [] id1 d1 Hid Hdoc Hpatch)
    as (_ & _ & Hrun & _).
  split; [exact Hid|]. split; [exact Hdoc|]. split; [exact Hpatch|].
  etransitivity; [exact Hrun|]. vm_compute. reflexivity.
Defined.

(** Deleting an identifier that no document has answers
    [{ document: null }]; deleting [id2] answers with its document. *)
Lemma delete_body_miss_and_hit_witness :
  let unknown := {| hex := "0000000000000000000000ff" |} in
  MemDb.ObjectId_new (hex unknown) = inr unknown
  ∧ MemDb.ObjectId_new (hex id2) = inr id2
  ∧ delete_body MemDb.ObjectId_new posts (request (hex unknown) ∅ ∅)
      {| store := stored; sent := [] |} =
      (inr tt, {| store := stored; sent := [DocumentJson None] |})
  ∧ ∃ rest,
      delete_body MemDb.ObjectId_new posts (request (hex id2) ∅ ∅)
        {| store := stored; sent := [] |} =
        (inr tt, {| store := {| MemDb.documents := rest; MemDb.issued := 3 |};
                    sent := [DocumentJson (Some d2)] |})
      ∧ [d2; d1; d3] ≡ₚ d2 :: rest.
Proof.
  intros unknown.
  assert (MemDb.ObjectId_new (hex unknown) = inr unknown) as Hmiss
    by (vm_compute; reflexivity).
  assert (MemDb.ObjectId_new (hex id2) = inr id2) as Hhit
    by (vm_compute; reflexivity).
  split; [exact Hmiss|]. split; [exact Hhit|]. split.
  - destruct (delete_body_miss_and_hit MemDb.ObjectId_new posts
                {| store := stored; sent := [] |} "post" None [d2; d1; d3] 3
                (request (hex unknown) ∅ ∅) [] unknown Hmiss)
      as (_ & _ & Hnone & _).
    apply Hnone. vm_compute. reflexivity.
  - destruct (delete_body_miss_and_hit MemDb.ObjectId_new posts
                {| store := stored; sent := [] |} "post" None [d2; d1; d3] 3
                (request (hex id2) ∅ ∅) [] id2 Hhit)
      as (_ & _ & _ & Hsome).
    apply (Hsome d2). vm_compute. reflexivity.
Defined.

(** A string that writes no identifier makes the delete body throw. *)
Example delete_body_malformed_id :
  result (delete_body MemDb.ObjectId_new posts (request "nope" ∅ ∅))
    {| store := stored; sent := [] |} =
    inl (Foreign "BSONError" "input must be a 24 character hex string").
Proof. vm_compute. reflexivity. Qed.
End Scenarios.

(** * Further properties of the registry *)

Section RegistryExtras.
Context {St : Type}.
Implicit Types (nm : string) (this : ConceptRouter St) (a b : Action St)
  (o : option (ActionOptions St)).

Lemma call_no_inherited_own_key c this :
  no_inherited_own_key this → no_inherited_own_key (call c this).
Proof.
  intros Hinv nm Hproto. destruct (Hinv nm Hproto) as (Ha & Ho & Hs).
  destruct c as [nm' a o|nm' a|nm'|nm']; unfold call.
  - unfold state_after. rewrite defineAction_run.
    destruct (js_in nm' (actions this)) eqn:Hin; [done|].
    assert (nm' ≠ nm) as Hne.
    { intros ->. apply js_in_false in Hin as [_ Hin]. congruence. }
    destruct o; simpl; unfold js_set; by rewrite ?lookup_insert_ne.
  - unfold state_after. rewrite sync_run.
    destruct (syncs this !! nm') as [l|] eqn:Hl.
    + assert (nm' ≠ nm) as Hne by (intros ->; congruence).
      simpl; unfold js_set; by rewrite lookup_insert_ne.
    + destruct (inherited nm') eqn:Hp; [done|].
      assert (nm' ≠ nm) as Hne by (intros ->; congruence).
      simpl; unfold js_set; by rewrite !lookup_insert_ne.
  - by rewrite action_pure.
  - by rewrite handlers_pure.
Qed.

(** X1. In every instance reached from the constructor, no name that
    [Object.prototype] defines is an own key of [actions], [options] or
    [syncs]: every write of the class sits behind a failed [in] test. *)
Theorem reachable_no_inherited_own_key this nm :
  reachable this → inherited nm = true →
  actions this !! nm = None ∧ options this !! nm = None
  ∧ syncs this !! nm = None.
Proof.
  intros (d & cs & ->). revert nm. change (no_inherited_own_key (calls cs (new d))).
  assert (no_inherited_own_key (new d)) as H0.
  { intros nm _. simpl. by rewrite !lookup_empty. }
  generalize (new d) H0. induction cs as [|c cs IH]; intros this H; [done|].
  apply (IH (call c this)). by apply call_no_inherited_own_key.
Qed.

(** X2. [sync] writes to [syncs] only: after it, whether it returned or
    threw, [action] and [handlers] give for every name what they gave
    before. *)
Theorem sync_leaves_chains nm a nm' this :
  let this' := state_after (sync nm a) this in
  actions this' = actions this ∧ options this' = options this
  ∧ name this' = name this
  ∧ result (action nm') this' = result (action nm') this
  ∧ result (handlers nm') this' = result (handlers nm') this.
Proof.
  intros this'.
  assert (actions this' = actions this ∧ options this' = options this
          ∧ name this' = name this) as (Ha & Ho & Hn).
  { unfold this', state_after. rewrite sync_run.
    destruct (syncs this !! nm); [done|]. by destruct (inherited nm). }
  split; [done|]. split; [done|]. split; [done|].
  unfold result. rewrite !action_run, !handlers_run, Ha, Ho.
  unfold does_not_exist. rewrite Hn.
  by destruct (js_in nm' (actions this)).
Qed.

(** X3. On a name that [Object.prototype] does not define, a run of
    [sync] calls appends its follow-ups, in call order, after those the
    name already had. *)
Theorem syncs_accumulate nm (fs : list (Action St)) this :
  inherited nm = false →
  syncs (calls (Sync nm <$> fs) this) !! nm =
    match fs with
    | [] => syncs this !! nm
    | _ => Some (default [] (syncs this !! nm) ++ fs)
    end.
Proof.
  intros Hproto. revert this. induction fs as [|f fs IH]; intros this; [done|].
  change (calls (Sync nm <$> f :: fs) this)
    with (calls (Sync nm <$> fs) (state_after (sync nm f) this)).
  rewrite IH. destruct (sync_appends nm f this Hproto) as [_ Hs].
  rewrite Hs. destruct fs; simpl; [done|]. by rewrite <- app_assoc.
Qed.
End RegistryExtras.

Section GeneratorExtras.
Context {St : Type} (ObjectId_new : string → Exn + ObjectId).
Implicit Types (nm : string) (this : ConceptRouter St) (a b : Action St)
  (o : option (ActionOptions St)) (g : Crud).

Lemma crud_define_run g o this :
  crud_define ObjectId_new g o this =
    defineAction (crud_name g) (crud_body ObjectId_new g (db this)) o this.
Proof. by destruct g. Qed.

Lemma call_db c this : db (call c this) = db this.
Proof.
  destruct c as [nm a o|nm a|nm|nm]; unfold call, state_after; simpl.
  - rewrite defineAction_run.
    destruct (js_in nm (actions this)); [done|]. by destruct o.
  - rewrite sync_run. destruct (syncs this !! nm); [done|].
    by destruct (inherited nm).
  - rewrite action_run. by destruct (js_in nm (actions this)).
  - rewrite handlers_run. by destruct (js_in nm (actions this)).
Qed.

(** X4. A generator registers, under its fixed name, the body closed over
    the bound store and passes its options on unchanged: after it
    succeeds, and after any later calls, [action] returns that body and
    [handlers] returns the options' validators followed by that body. *)
Theorem generator_registers_chain g o cs this :
  reachable this →
  result (crud_define ObjectId_new g o) this = inr tt →
  let this' := calls cs (state_after (crud_define ObjectId_new g o) this) in
  result (action (crud_name g)) this' =
    inr (Own (crud_body ObjectId_new g (db this)))
  ∧ result (handlers (crud_name g)) this' =
      inr ((Own <$> supplied_validators o)
             ++ [Own (crud_body ObjectId_new g (db this))]).
Proof.
  intros Hr Hok this'.
  pose proof (crud_define_run g o this) as Hrun.
  set (body := crud_body ObjectId_new g (db this)) in *.
  assert (result (defineAction (crud_name g) body o) this = inr tt) as Hok'.
  { unfold result in *. by rewrite <- Hrun. }
  assert (this' = calls cs (state_after (defineAction (crud_name g) body o) this))
    as ->.
  { unfold this', state_after. by rewrite Hrun. }
  split.
  - apply action_of_registered.
    by apply calls_keep_registration, defineAction_registers.
  - by apply handlers_after_calls_reachable.
Qed.

(** X5. The fields set by the constructor are never written again: after
    any calls the instance still holds the store it was built with, and
    its [name] is that store's name. *)
Theorem constructor_fields_stay (d : ConceptDb St) cs :
  db (calls cs (new d)) = d ∧ name (calls cs (new d)) = db_name d.
Proof.
  assert (db (new d) = d ∧ name (new d) = db_name d) as H0 by done.
  revert H0. generalize (new d). induction cs as [|c cs IH]; intros this H; [done|].
  apply (IH (call c this)). by rewrite call_db, call_name.
Qed.

(** X9. [defineAction] for one name, whether it registers or throws,
    leaves what [action] and [handlers] give for every other name. *)
Theorem defineAction_leaves_other_names nm a o nm' this :
  nm' ≠ nm →
  let this' := state_after (defineAction nm a o) this in
  result (action nm') this' = result (action nm') this
  ∧ result (handlers nm') this' = result (handlers nm') this.
Proof.
  intros Hne' this'. assert (nm ≠ nm') as Hne by congruence.
  assert (actions this' !! nm' = actions this !! nm'
          ∧ options this' !! nm' = options this !! nm'
          ∧ name this' = name this) as (Ha & Ho & Hn).
  { unfold this', state_after. rewrite defineAction_run.
    destruct (js_in nm (actions this)); [done|].
    destruct o; simpl; unfold js_set; by rewrite ?lookup_insert_ne by done. }
  unfold result. rewrite !action_run, !handlers_run.
  unfold js_in, js_get, does_not_exist. rewrite Ha, Ho, Hn.
  by destruct (actions this !! nm'), (inherited nm').
Qed.

(** X10. [action] and [handlers] accept the same names and neither writes:
    when [action] returns a value, [handlers] returns a list ending with
    that value; when [action] throws, [handlers] throws "is not defined". *)
Theorem handlers_ends_with_action nm this :
  match result (action nm) this with
  | inr v => ∃ vs, result (handlers nm) this = inr (vs ++ [v])
  | inl _ => result (handlers nm) this = inl (is_not_defined nm)
  end
  ∧ state_after (action nm) this = this
  ∧ state_after (handlers nm) this = this.
Proof.
  split; [|split; [apply action_pure|apply handlers_pure]].
  unfold result. rewrite action_run, handlers_run.
  destruct (js_in nm (actions this)); simpl; eauto.
Qed.
End GeneratorExtras.

(** * Further properties of the bodies *)

Section BodyExtras.
Context {St : Type} (ObjectId_new : string → Exn + ObjectId).
Implicit Types (d : ConceptDb St) (req : Request) (w : World St) (g : Crud).

Lemma create_body_run d req w :
  create_body d req w =
    match createOne d (body_document req) (store w) with
    | (inr inserted, st) =>
        (inr tt,
         {| store := st;
            sent := sent w ++
              [DocumentJson (Some (<["_id" := JObjectId (insertedId inserted)]>
                                     (body_document req)))] |})
    | (inl e, st) => (inl e, {| store := st; sent := sent w |})
    end.
Proof.
  unfold create_body, bind, await, res_json, modify.
  by destruct (createOne d _ (store w)) as [[e|inserted] st].
Qed.


(** X7. Each of the four bodies, on any store, either returns having
    written exactly one answer to the response, or throws having written
    none. *)
Theorem body_answers_once_or_throws g d req w :
  match crud_body ObjectId_new g d req w with
  | (inr _, w') => ∃ b, sent w' = sent w ++ [b]
  | (inl _, w') => sent w' = sent w
  end.
Proof.
  destruct g; simpl.
  - rewrite create_body_run.
    destruct (createOne d _ (store w)) as [[e|inserted] st]; simpl; eauto.
  - rewrite read_body_run.
    destruct (readMany d _ _ (store w)) as [[e|documents] st]; simpl; eauto.
  - rewrite update_body_run.
    destruct (ObjectId_new (params__id req)) as [e|_id]; [done|].
    destruct (updateOneById d _ _ (store w)) as [[e|u] st]; [done|].
    destruct (readOneById d _ st) as [[e|document] st']; simpl; eauto.
  - rewrite delete_body_run.
    destruct (ObjectId_new (params__id req)) as [e|_id]; [done|].
    destruct (popOneById d _ (store w)) as [[e|document] st]; simpl; eauto.
Qed.

(** X8. When [new ObjectId] rejects the identifier string, the update body
    and the delete body throw its exception before any store call: the
    store and the response are as they were. *)
Theorem rejected_id_skips_store g d req w e :
  ObjectId_new (params__id req) = inl e →
  g = Update ∨ g = Delete →
  crud_body ObjectId_new g d req w = (inl e, w).
Proof.
  intros Hid [-> | ->]; simpl.
  - by rewrite update_body_run, Hid.
  - by rewrite delete_body_run, Hid.
Qed.
End BodyExtras.

Section ExtraInstances.
Import Sample.

Lemma reachable_no_inherited_own_key_witness :
  let this :=
    calls [DefineAction "valueOf" b1 None; Sync "toString" f1;
           DefineAction "publish" b1 None] (new posts) in
  reachable this ∧ inherited "valueOf" = true
  ∧ actions this !! "valueOf" = None ∧ options this !! "valueOf" = None
  ∧ syncs this !! "valueOf" = None.
Proof.
  intros this.
  assert (reachable this) as Hr by (by eexists posts, _).
  assert (inherited "valueOf" = true) as Hp by (vm_compute; reflexivity).
  split; [exact Hr|]. split; [exact Hp|].
  exact (reachable_no_inherited_own_key this "valueOf" Hr Hp).
Defined.

Lemma syncs_accumulate_witness :
  inherited "publish" = false
  ∧ syncs (calls [Sync "publish" f1; Sync "publish" f2; Sync "publish" f1]
             (new posts)) !! "publish" = Some [f1; f2; f1].
Proof.
  assert (inherited "publish" = false) as Hp by (vm_compute; reflexivity).
  split; [exact Hp|].
  exact (syncs_accumulate "publish" [f1; f2; f1] (new posts) Hp).
Defined.

Lemma generator_registers_chain_witness :
  let o := Some {| validate := Some [v1; v2] |} in
  let this' :=
    calls [Sync "read" f1; DefineAction "read" b2 None]
      (state_after (defineReadAction o) (new posts)) in
  reachable (new posts)
  ∧ result (defineReadAction o) (new posts) = inr tt
  ∧ result (action "read") this' = inr (Own (read_body posts))
  ∧ result (handlers "read") this' =
      inr [Own v1; Own v2; Own (read_body posts)].
Proof.
  intros o this'.
  assert (result (defineReadAction o) (new posts) = inr tt) as Hok
    by (vm_compute; reflexivity).
  split; [apply new_reachable|]. split; [exact Hok|].
  exact (generator_registers_chain MemDb.ObjectId_new Read o
           [Sync "read" f1; DefineAction "read" b2 None] (new posts)
           (new_reachable posts) Hok).
Defined.


Lemma rejected_id_skips_store_witness :
  let w := {| store := stored; sent := [] |} in
  let e := Foreign "BSONError" "input must be a 24 character hex string" in
  MemDb.ObjectId_new "nope" = inl e
  ∧ update_body MemDb.ObjectId_new posts
      (request "nope" {[ "title" := JString "y" ]} ∅) w = (inl e, w)
  ∧ delete_body MemDb.ObjectId_new posts (request "nope" ∅ ∅) w = (inl e, w).
Proof.
  intros w e.
  assert (MemDb.ObjectId_new "nope" = inl e) as Hid by (vm_compute; reflexivity).
  split; [exact Hid|]. split.
  - exact (rejected_id_skips_store MemDb.ObjectId_new Update posts
             (request "nope" {[ "title" := JString "y" ]} ∅) w e Hid
             (or_introl eq_refl)).
  - exact (rejected_id_skips_store MemDb.ObjectId_new Delete posts
             (request "nope" ∅ ∅) w e Hid (or_intror eq_refl)).
Defined.

Lemma defineAction_leaves_other_names_witness :
  let this := state_after (defineAction "publish" b1 None) (new posts) in
  let this' := state_after (defineAction "archive" b2 None) this in
  "publish" ≠ "archive"
  ∧ result (action "publish") this' = result (action "publish") this
  ∧ result (handlers "publish") this' = result (handlers "publish") this.
Proof.
  intros this this'.
  assert ("publish" ≠ "archive") as Hne by discriminate.
  split; [exact Hne|].
  exact (defineAction_leaves_other_names "archive" b2 None "publish" this Hne).
Defined.
End ExtraInstances.
